(** * A Rust-inspired Result type for TypeScript: model and verification

    The library (index.ts) defines an abstract class [BaseResult] with two
    subclasses [Ok] and [Err], the exported constructors [ok] and [err] and
    the exported error class [ResultError].

    The model keeps what the claims about the library talk about:
    - results are heap objects with an identity (a location), a class and
      fields, because [map] returns [this] on the [Err] branch and
      allocates a fresh [Ok] on the other one;
    - [throw] is an outcome of its own, carrying the thrown value;
    - every invocation of a caller-supplied function made by the library is
      recorded in a log, so that "invoked exactly once" is a statement about
      the log. *)

From Stdlib Require Import ZArith String.
From stdpp Require Import base option list strings gmap.

Local Open Scope string_scope.
Local Open Scope list_scope.

(** ** Values, classes and objects *)

Definition loc := nat.

(** JavaScript values. Numbers are restricted to integers: the library never
    computes on a payload. Functions are not payloads in this model; they
    appear only as the callbacks given to [map] and [match]. *)
Inductive value : Type :=
| VUndefined
| VNull
| VBool (b : bool)
| VNum (n : Z)
| VStr (s : string)
| VRef (l : loc).

#[global] Instance value_eq_dec : EqDecision value.
Proof. solve_decision. Defined.

Inductive class : Type :=
| CObject
| CError
| CResultError
| CBaseResult
| COk
| CErr.

#[global] Instance class_eq_dec : EqDecision class.
Proof. solve_decision. Defined.

(** [class X extends Y]: the prototype chain of an instance of each class. *)
Definition proto_chain (c : class) : list class :=
  match c with
  | CObject => [CObject]
  | CError => [CError; CObject]
  | CResultError => [CResultError; CError; CObject]
  | CBaseResult => [CBaseResult; CObject]
  | COk => [COk; CBaseResult; CObject]
  | CErr => [CErr; CBaseResult; CObject]
  end.

Record object : Type := Object {
  obj_class : class;
  obj_fields : gmap string value
}.

(** [o instanceof C] *)
Definition instanceof (o : object) (c : class) : bool :=
  bool_decide (c ∈ proto_chain (obj_class o)).

(** [o.f]; reading a property that is absent yields [undefined]. *)
Definition get_field (o : object) (f : string) : value :=
  default VUndefined (obj_fields o !! f).

(** ** The world: a heap of objects and the log of callback invocations *)

Record world : Type := World {
  heap : list object;
  calls : list (nat * value)
}.

(** How an evaluation ends: with a value, with a thrown value, or on a
    reference that points outside the heap (which no execution reaches from
    references handed out by [new]). *)
Inductive outcome (A : Type) : Type :=
| Normal (a : A)
| Thrown (exn : value)
| Stuck.
Arguments Normal {A} a.
Arguments Thrown {A} exn.
Arguments Stuck {A}.

Definition M (A : Type) : Type := world -> outcome A * world.

Definition ret {A} (a : A) : M A := fun w => (Normal a, w).

Definition throw {A} (exn : value) : M A := fun w => (Thrown exn, w).

Definition bind {A B} (m : M A) (k : A -> M B) : M B :=
  fun w =>
    match m w with
    | (Normal a, w') => k a w'
    | (Thrown exn, w') => (Thrown exn, w')
    | (Stuck, w') => (Stuck, w')
    end.

Notation "x <- m ;; k" := (bind m (fun x => k))
  (at level 100, m at next level, right associativity).

(** [new C(...)]: the object gets the next free location. *)
Definition new (o : object) : M loc :=
  fun w => (Normal (length (heap w)),
            {| heap := heap w ++ [o]; calls := calls w |}).

Definition deref (l : loc) : M object :=
  fun w =>
    match heap w !! l with
    | Some o => (Normal o, w)
    | None => (Stuck, w)
    end.

(** A caller-supplied function: an identity for the log and a body that may
    read and change the heap, return or throw. *)
Record callback : Type := Callback {
  fn_id : nat;
  fn_body : value -> list object -> outcome value * list object
}.

(** [fn(v)]: the invocation is logged, then the body runs. *)
Definition invoke (fn : callback) (v : value) : M value :=
  fun w =>
    let '(r, h') := fn_body fn v (heap w) in
    (r, {| heap := h'; calls := calls w ++ [(fn_id fn, v)] |}).

(** A function without effects. *)
Definition pure_fn (id : nat) (g : value -> value) : callback :=
  {| fn_id := id; fn_body := fun v h => (Normal (g v), h) |}.

(** ** The classes of index.ts *)

(** [class Ok { constructor(public readonly value) { super(); } }] *)
Definition Ok (value : value) : object :=
  {| obj_class := COk; obj_fields := {[ "value" := value ]} |}.

(** [class Err { constructor(public readonly error) { super(); } }] *)
Definition Err (error : value) : object :=
  {| obj_class := CErr; obj_fields := {[ "error" := error ]} |}.

(** [class ResultError extends Error { name = 'ResultError';
      constructor(message) { super(message); } }]:
    [super(message)] stores the message, then the field initializer runs.
    The [stack] property that the engine adds is left out. *)
Definition ResultError (message : string) : object :=
  {| obj_class := CResultError;
     obj_fields := <[ "name" := VStr "ResultError" ]>
                     {[ "message" := VStr message ]} |}.

Record match_options : Type := MatchOptions {
  options_ok : callback;
  options_err : callback
}.

(** The methods of the abstract class, each as a function of [this]. The
    calls [this.isOk()] and [this.isErr()] inside a method are resolved to
    the methods below; on a receiver that is not a [BaseResult] the code
    would fail there with a [TypeError], so the methods are stated on
    Results only. *)
Module BaseResult.

(** [return this instanceof Ok;] *)
Definition isOk (this : loc) : M bool :=
  o <- deref this ;; ret (instanceof o COk).

(** [return this instanceof Err;] *)
Definition isErr (this : loc) : M bool :=
  o <- deref this ;; ret (instanceof o CErr).

(** [this.f] *)
Definition get (this : loc) (f : string) : M value :=
  o <- deref this ;; ret (get_field o f).

Definition match_ (this : loc) (options : match_options) : M value :=
  b <- isOk this ;;
  if b : bool then (v <- get this "value" ;; invoke (options_ok options) v)
  else (e <- get this "error" ;; invoke (options_err options) e).

(** The two-element array literal is modelled by its two components; the
    allocation of the array is left out. *)
Definition unwrapTuple (this : loc) : M (value * value) :=
  b <- isOk this ;;
  if b : bool then (v <- get this "value" ;; ret (v, VUndefined))
  else (e <- get this "error" ;; ret (VUndefined, e)).

Definition map (this : loc) (fn : callback) : M loc :=
  b <- isOk this ;;
  if b : bool then
    (v <- get this "value" ;; u <- invoke fn v ;; new (Ok u))
  else ret this.

Definition unwrapErr (this : loc) : M value :=
  b <- isErr this ;;
  if b : bool then get this "error"
  else (x <- new (ResultError "Called unwrapErr on an Ok value") ;;
        throw (VRef x)).

Definition unwrap (this : loc) : M value :=
  b <- isOk this ;;
  if b : bool then get this "value"
  else (x <- new (ResultError "Called unwrap on an Err value") ;;
        throw (VRef x)).

Definition unwrapOr (this : loc) (fallback : value) : M value :=
  b <- isOk this ;;
  if b : bool then get this "value" else ret fallback.

End BaseResult.

(** [export function ok(value) { return new Ok(value); }] *)
Definition ok (value : value) : M loc := new (Ok value).

(** [export function err(error) { return new Err(error); }] *)
Definition err (error : value) : M loc := new (Err error).

(** ** Reading a heap as the two-variant tagged value *)

Inductive variant : Type :=
| Success (payload : value)
| Failure (payload : value).

(** The Result that a location denotes in a heap, if it denotes one: the
    tag is the class of the object, the payload the field of that class. *)
Definition view (h : list object) (l : loc) : option variant :=
  match h !! l with
  | Some o =>
      match obj_class o with
      | COk => Some (Success (get_field o "value"))
      | CErr => Some (Failure (get_field o "error"))
      | _ => None
      end
  | None => None
  end.

Definition allocated (h : list object) (l : loc) : Prop := l < length h.

(** A component of the tuple is present when it is not [undefined]. *)
Definition defined (v : value) : bool :=
  match v with VUndefined => false | _ => true end.

Definition exactly_one_defined (t : value * value) : bool :=
  xorb (defined (fst t)) (defined (snd t)).

Definition empty_world : world := {| heap := []; calls := [] |}.

Definition is_success (x : variant) : bool :=
  match x with Success _ => true | Failure _ => false end.

Definition payload (x : variant) : value :=
  match x with Success v => v | Failure e => e end.

(** An evaluation raises the misuse error with a given message: it throws a
    reference to an object built by [new ResultError(message)]. *)
Definition raises_ResultError {A} (m : M A) (w : world) (message : string)
  : Prop :=
  exists x w', m w = (Thrown (VRef x), w')
               /\ heap w' !! x = Some (ResultError message).

Definition raises {A} (m : M A) (w : world) : Prop :=
  exists exn w', m w = (Thrown exn, w').

(** [x => x * 2], the function of the test suite. *)
Definition times2 : callback :=
  pure_fn 0 (fun v => match v with VNum n => VNum (n * 2) | _ => VUndefined end).

(** The handlers of the test suite, up to the text they build. *)
Definition test_options : match_options :=
  {| options_ok := pure_fn 1 (fun _ => VStr "Success");
     options_err := pure_fn 2 (fun _ => VStr "Failure") |}.

(** The world in which a test starts with one Result already built. *)
Definition world_ok10 : world := snd (ok (VNum 10) empty_world).
Definition world_err : world := snd (err (VStr "error") empty_world).

(** "[m] produces a new Result value": the location returned denotes a
    Result and was not allocated when [m] started. *)
Definition returns_new_Result (m : M loc) (w : world) : Prop :=
  exists l w', m w = (Normal l, w')
               /\ ~ allocated (heap w) l
               /\ is_Some (view (heap w') l).

(** "[m] returns a tuple in which exactly one component is present". *)
Definition returns_exactly_one_defined (m : M (value * value)) (w : world)
  : Prop :=
  exists t w', m w = (Normal t, w') /\ exactly_one_defined t = true.


(** ** Chained calls and the idioms of the README *)

(** [this.map(fn1).map(fn2)...]: [map] chained over a list of functions,
    each call on what the call before returned. *)
Fixpoint map_all (this : loc) (fns : list callback) : M loc :=
  match fns with
  | [] => ret this
  | fn :: fns' => r <- BaseResult.map this fn ;; map_all r fns'
  end.

(** A list of functions without effects, each with its identity. *)
Definition pure_fns (l : list (nat * (value -> value))) : list callback :=
  List.map (fun p => pure_fn (fst p) (snd p)) l.

(** The payload after each function of the list was applied in turn. *)
Fixpoint apply_all (l : list (nat * (value -> value))) (v : value) : value :=
  match l with
  | [] => v
  | (_, g) :: l' => apply_all l' (g v)
  end.

(** The invocations this makes: each function once, on what the one before
    it returned. *)
Fixpoint invocations (l : list (nat * (value -> value))) (v : value)
  : list (nat * value) :=
  match l with
  | [] => []
  | (id, g) :: l' => (id, v) :: invocations l' (g v)
  end.

(** The objects this allocates: one [Ok] for every function. *)
Fixpoint allocations (l : list (nat * (value -> value))) (v : value)
  : list object :=
  match l with
  | [] => []
  | (_, g) :: l' => Ok (g v) :: allocations l' (g v)
  end.

(** What [if (v)] tests: [undefined], [null], [false], [0] and the empty
    string are falsy, everything else is truthy. *)
Definition truthy (v : value) : bool :=
  match v with
  | VUndefined | VNull => false
  | VBool b => b
  | VNum n => negb (n =? 0)%Z
  | VStr s => negb (String.eqb s "")
  | VRef _ => true
  end.

(** [const [value, error] = this.unwrapTuple(); if (error) {...} else {...}]:
    whether the branch of the error runs. *)
Definition tuple_if_error (this : loc) : M bool :=
  t <- BaseResult.unwrapTuple this ;; ret (truthy (snd t)).

(** [const [value, error] = this.unwrapTuple(); if (value) {...} else {...}]:
    whether the branch of the value runs. *)
Definition tuple_if_value (this : loc) : M bool :=
  t <- BaseResult.unwrapTuple this ;; ret (truthy (fst t)).

(** [x => x * 2] on values. *)
Definition times2_value (v : value) : value :=
  match v with VNum n => VNum (n * 2) | _ => VUndefined end.

(** A function that throws whatever it is given. *)
Definition throwing_fn : callback :=
  {| fn_id := 3; fn_body := fun v h => (Thrown v, h) |}.

(** [v => err(v)], a function with an effect: it allocates a failure that
    holds its argument and returns it. *)
Definition allocating_fn : callback :=
  {| fn_id := 4;
     fn_body := fun v h => (Normal (VRef (length h)), h ++ [Err v]) |}.


(** Splits conjunctions and equivalences, and nothing else. *)
Ltac split_all :=
  repeat match goal with
         | |- _ /\ _ => split
         | |- _ <-> _ => split
         end.

(** ** Basic facts about the heap primitives *)

Section Primitives.

Variable w : world.

Lemma lookup_new (h : list object) (o : object) :
  (h ++ [o]) !! length h = Some o.
Proof. by apply list_lookup_middle. Qed.

Lemma bind_new {B} (o : object) (k : loc -> M B) :
  bind (new o) k w
  = k (length (heap w)) {| heap := heap w ++ [o]; calls := calls w |}.
Proof. reflexivity. Qed.

Lemma deref_at (l : loc) (o : object) :
  heap w !! l = Some o -> deref l w = (Normal o, w).
Proof. intros H. unfold deref. by rewrite H. Qed.

Lemma isOk_at (l : loc) (o : object) :
  heap w !! l = Some o ->
  BaseResult.isOk l w = (Normal (instanceof o COk), w).
Proof.
  intros H. unfold BaseResult.isOk, bind. by rewrite (deref_at _ _ H).
Qed.

Lemma isErr_at (l : loc) (o : object) :
  heap w !! l = Some o ->
  BaseResult.isErr l w = (Normal (instanceof o CErr), w).
Proof.
  intros H. unfold BaseResult.isErr, bind. by rewrite (deref_at _ _ H).
Qed.

Lemma get_at (l : loc) (o : object) (f : string) :
  heap w !! l = Some o ->
  BaseResult.get l f w = (Normal (get_field o f), w).
Proof.
  intros H. unfold BaseResult.get, bind. by rewrite (deref_at _ _ H).
Qed.

End Primitives.

Lemma get_field_Ok (v : value) : get_field (Ok v) "value" = v.
Proof. unfold get_field, Ok; simpl. by rewrite lookup_singleton_eq. Qed.

Lemma get_field_Err (e : value) : get_field (Err e) "error" = e.
Proof. unfold get_field, Err; simpl. by rewrite lookup_singleton_eq. Qed.

Lemma view_new_Ok (h : list object) (v : value) :
  view (h ++ [Ok v]) (length h) = Some (Success v).
Proof. unfold view. rewrite lookup_new. simpl. by rewrite get_field_Ok. Qed.

Lemma view_new_Err (h : list object) (e : value) :
  view (h ++ [Err e]) (length h) = Some (Failure e).
Proof. unfold view. rewrite lookup_new. simpl. by rewrite get_field_Err. Qed.

(** A location that denotes a Result holds an object of class [Ok] or
    [Err] whose field is the payload. *)
Lemma view_inv (h : list object) (l : loc) (x : variant) :
  view h l = Some x ->
  exists o, h !! l = Some o
    /\ instanceof o COk = is_success x
    /\ instanceof o CErr = negb (is_success x)
    /\ get_field o (if is_success x then "value" else "error") = payload x.
Proof.
  unfold view. destruct (h !! l) as [o|] eqn:Hl; [|discriminate].
  intros H. exists o. unfold instanceof.
  destruct (obj_class o); inversion H; subst; auto.
Qed.

(** The heap only grows by [new]: what a location denotes is kept. *)
Lemma view_app (h h' : list object) (l : loc) (x : variant) :
  view h l = Some x -> view (h ++ h') l = Some x.
Proof.
  unfold view. destruct (h !! l) as [o|] eqn:Hl; [|discriminate].
  by rewrite (lookup_app_l_Some _ _ _ _ Hl).
Qed.

(** ** The methods on a location that denotes a Result *)

Section Methods.

Variables (w : world) (r : loc) (x : variant).
Hypothesis Hr : view (heap w) r = Some x.

Lemma isOk_view : BaseResult.isOk r w = (Normal (is_success x), w).
Proof.
  destruct (view_inv _ _ _ Hr) as (o & Ho & Hok & _).
  by rewrite (isOk_at _ _ _ Ho), Hok.
Qed.

Lemma isErr_view : BaseResult.isErr r w = (Normal (negb (is_success x)), w).
Proof.
  destruct (view_inv _ _ _ Hr) as (o & Ho & _ & Herr & _).
  by rewrite (isErr_at _ _ _ Ho), Herr.
Qed.

Lemma get_view :
  BaseResult.get r (if is_success x then "value" else "error") w
  = (Normal (payload x), w).
Proof.
  destruct (view_inv _ _ _ Hr) as (o & Ho & _ & _ & Hp).
  by rewrite (get_at _ _ _ _ Ho), Hp.
Qed.

Lemma unwrap_view :
  BaseResult.unwrap r w
  = match x with
    | Success v => (Normal v, w)
    | Failure _ =>
        (Thrown (VRef (length (heap w))),
         {| heap := heap w ++ [ResultError "Called unwrap on an Err value"];
            calls := calls w |})
    end.
Proof.
  unfold BaseResult.unwrap, bind at 1. rewrite isOk_view.
  pose proof get_view as Hg. destruct x; simpl in *; [exact Hg | reflexivity].
Qed.

Lemma unwrapErr_view :
  BaseResult.unwrapErr r w
  = match x with
    | Failure e => (Normal e, w)
    | Success _ =>
        (Thrown (VRef (length (heap w))),
         {| heap := heap w
                    ++ [ResultError "Called unwrapErr on an Ok value"];
            calls := calls w |})
    end.
Proof.
  unfold BaseResult.unwrapErr, bind at 1. rewrite isErr_view.
  pose proof get_view as Hg. destruct x; simpl in *; [reflexivity | exact Hg].
Qed.

Lemma unwrapOr_view (fallback : value) :
  BaseResult.unwrapOr r fallback w
  = (Normal (match x with Success v => v | Failure _ => fallback end), w).
Proof.
  unfold BaseResult.unwrapOr, bind at 1. rewrite isOk_view.
  pose proof get_view as Hg. destruct x; simpl in *; [exact Hg | reflexivity].
Qed.

Lemma unwrapTuple_view :
  BaseResult.unwrapTuple r w
  = (Normal (match x with
             | Success v => (v, VUndefined)
             | Failure e => (VUndefined, e)
             end), w).
Proof.
  unfold BaseResult.unwrapTuple, bind at 1. rewrite isOk_view.
  pose proof get_view as Hg.
  destruct x; simpl in *; unfold bind; by rewrite Hg.
Qed.

Lemma match_view (options : match_options) :
  BaseResult.match_ r options w
  = match x with
    | Success v => invoke (options_ok options) v w
    | Failure e => invoke (options_err options) e w
    end.
Proof.
  unfold BaseResult.match_, bind at 1. rewrite isOk_view.
  pose proof get_view as Hg.
  destruct x; simpl in *; unfold bind; by rewrite Hg.
Qed.

Lemma map_view (fn : callback) :
  BaseResult.map r fn w
  = match x with
    | Success v => (u <- invoke fn v ;; new (Ok u)) w
    | Failure _ => (Normal r, w)
    end.
Proof.
  unfold BaseResult.map, bind at 1. rewrite isOk_view.
  pose proof get_view as Hg.
  destruct x; simpl in *; [|reflexivity].
  unfold bind at 1. by rewrite Hg.
Qed.

End Methods.

Lemma raises_Thrown {A} (m : M A) (w w' : world) (exn : value) :
  m w = (Thrown exn, w') -> raises m w.
Proof. intros H. by exists exn, w'. Qed.

Lemma not_raises_Normal {A} (m : M A) (w w' : world) (a : A) :
  m w = (Normal a, w') -> ~ raises m w.
Proof. intros H (exn & w'' & H'). rewrite H in H'. discriminate. Qed.

Lemma raises_ResultError_new {A} (m : M A) (w : world) (message : string) :
  m w = (Thrown (VRef (length (heap w))),
         {| heap := heap w ++ [ResultError message]; calls := calls w |}) ->
  raises_ResultError m w message.
Proof.
  intros H. eexists _, _. split; [exact H|]. simpl. apply lookup_new.
Qed.

Lemma bind_Normal {A B} (m : M A) (k : A -> M B) (w w' : world) (a : A) :
  m w = (Normal a, w') -> bind m k w = k a w'.
Proof. intros H. unfold bind. by rewrite H. Qed.

(** [map] with a function without effects on a success: one invocation is
    logged and a fresh [Ok] holds the image of the payload. *)
Lemma map_pure_Success (w : world) (r : loc) (v : value) (id : nat)
    (g : value -> value) :
  view (heap w) r = Some (Success v) ->
  BaseResult.map r (pure_fn id g) w
  = (Normal (length (heap w)),
     {| heap := heap w ++ [Ok (g v)]; calls := calls w ++ [(id, v)] |}).
Proof. intros Hr. by rewrite (map_view _ _ _ Hr). Qed.

Lemma length_new (h : list object) (o : object) :
  length (h ++ [o]) = S (length h).
Proof. rewrite length_app. simpl. lia. Qed.

(** ** The claims *)

(** C1. In every world, [ok(v).unwrap()] returns [v] and [err(e).unwrap()]
    throws a [ResultError]; [err(e).unwrapErr()] returns [e] and
    [ok(v).unwrapErr()] throws a [ResultError]. On every Result each
    extractor throws if and only if the Result is of the other variant, it
    returns the payload otherwise, and what it throws is a [ResultError]
    whose message is ['Called unwrap on an Err value'], respectively
    ['Called unwrapErr on an Ok value']. *)
Theorem unwrap_unwrapErr_spec (w : world) (v e : value) :
  (r0 <- ok v ;; BaseResult.unwrap r0) w = (Normal v, snd (ok v w))
  /\ raises_ResultError (r0 <- err e ;; BaseResult.unwrap r0) w
       "Called unwrap on an Err value"
  /\ (r0 <- err e ;; BaseResult.unwrapErr r0) w = (Normal e, snd (err e w))
  /\ raises_ResultError (r0 <- ok v ;; BaseResult.unwrapErr r0) w
       "Called unwrapErr on an Ok value"
  /\ forall (r : loc) (x : variant),
       view (heap w) r = Some x ->
       (raises (BaseResult.unwrap r) w <-> is_success x = false)
       /\ (raises (BaseResult.unwrapErr r) w <-> is_success x = true)
       /\ (is_success x = true ->
           BaseResult.unwrap r w = (Normal (payload x), w))
       /\ (is_success x = false ->
           BaseResult.unwrapErr r w = (Normal (payload x), w))
       /\ (raises (BaseResult.unwrap r) w ->
           raises_ResultError (BaseResult.unwrap r) w
             "Called unwrap on an Err value")
       /\ (raises (BaseResult.unwrapErr r) w ->
           raises_ResultError (BaseResult.unwrapErr r) w
             "Called unwrapErr on an Ok value").
Proof.
  split_all.
  - unfold ok. rewrite bind_new.
    by erewrite unwrap_view by apply view_new_Ok.
  - unfold raises_ResultError, err. rewrite bind_new.
    erewrite unwrap_view by apply view_new_Err. simpl.
    eexists _, _. split; [reflexivity|]. apply lookup_new.
  - unfold err. rewrite bind_new.
    by erewrite unwrapErr_view by apply view_new_Err.
  - unfold raises_ResultError, ok. rewrite bind_new.
    erewrite unwrapErr_view by apply view_new_Ok. simpl.
    eexists _, _. split; [reflexivity|]. apply lookup_new.
  - intros r x Hr.
    pose proof (unwrap_view _ _ _ Hr) as Hu.
    pose proof (unwrapErr_view _ _ _ Hr) as He.
    split_all.
    + destruct x; simpl in *; [|done].
      intros H. by apply (not_raises_Normal _ _ _ _ Hu) in H.
    + destruct x; simpl in *; [done|]. intros _. by eapply raises_Thrown.
    + destruct x; simpl in *; [done|].
      intros H. by apply (not_raises_Normal _ _ _ _ He) in H.
    + destruct x; simpl in *; [|done]. intros _. by eapply raises_Thrown.
    + destruct x; simpl in *; [done | discriminate].
    + destruct x; simpl in *; [discriminate | done].
    + destruct x; simpl in *.
      * intros H. by apply (not_raises_Normal _ _ _ _ Hu) in H.
      * intros _. by apply raises_ResultError_new.
    + destruct x; simpl in *.
      * intros _. by apply raises_ResultError_new.
      * intros H. by apply (not_raises_Normal _ _ _ _ He) in H.
Qed.

Lemma unwrap_unwrapErr_witness :
  (r0 <- ok (VNum 1) ;; BaseResult.unwrap r0) empty_world
  = (Normal (VNum 1), snd (ok (VNum 1) empty_world))
  /\ view (heap world_err) 0 = Some (Failure (VStr "error"))
  /\ raises_ResultError (BaseResult.unwrap 0) world_err
       "Called unwrap on an Err value"
  /\ BaseResult.unwrapErr 0 world_err = (Normal (VStr "error"), world_err).
Proof.
  assert (Hr : view (heap world_err) 0 = Some (Failure (VStr "error")))
    by reflexivity.
  pose proof (unwrap_unwrapErr_spec world_err VNull VNull)
    as (_ & _ & _ & _ & Hall).
  destruct (Hall 0 _ Hr) as (Hiff & _ & _ & Hret & Hmsg & _).
  split; [exact (proj1 (unwrap_unwrapErr_spec empty_world (VNum 1) VNull))|].
  split; [exact Hr|]. split.
  - apply Hmsg, Hiff. reflexivity.
  - apply Hret. reflexivity.
Defined.

(** C2. In every world, [ok(v).map(f)] with a pure [f] is a success
    wrapping [f(v)], so [ok(v).map(f).unwrap()] returns [f(v)]; and for any
    function [fn], [map] on a Result invokes [fn] exactly once, on the
    payload, when the Result is a success, and not at all when it is a
    failure: the log of invocations grows by that one entry, respectively
    stays as it is, by the time [map] returns or propagates what [fn]
    threw. *)
Theorem map_ok_spec (w : world) (v : value) (id : nat)
    (g : value -> value) :
  (r0 <- ok v ;; r1 <- BaseResult.map r0 (pure_fn id g) ;;
   BaseResult.unwrap r1) w
  = (Normal (g v),
     {| heap := heap w ++ [Ok v; Ok (g v)]; calls := calls w ++ [(id, v)] |})
  /\ (r0 <- ok v ;; r1 <- BaseResult.map r0 (pure_fn id g) ;;
      BaseResult.isOk r1) w
     = (Normal true,
        {| heap := heap w ++ [Ok v; Ok (g v)];
           calls := calls w ++ [(id, v)] |})
  /\ (exists r1 w1,
        (r0 <- ok v ;; BaseResult.map r0 (pure_fn id g)) w = (Normal r1, w1)
        /\ view (heap w1) r1 = Some (Success (g v)))
  /\ forall (r : loc) (x : variant) (fn : callback),
       view (heap w) r = Some x ->
       calls (snd (BaseResult.map r fn w))
       = calls w ++ (if is_success x then [(fn_id fn, payload x)] else []).
Proof.
  assert (Hm : (r0 <- ok v ;; BaseResult.map r0 (pure_fn id g)) w
               = (Normal (S (length (heap w))),
                  {| heap := heap w ++ [Ok v; Ok (g v)];
                     calls := calls w ++ [(id, v)] |})).
  { unfold ok. rewrite bind_new.
    erewrite map_pure_Success by apply view_new_Ok. simpl.
    by rewrite length_new, <- app_assoc. }
  assert (Hv : view (heap w ++ [Ok v; Ok (g v)]) (S (length (heap w)))
               = Some (Success (g v))).
  { rewrite <- length_new with (o := Ok v).
    change [Ok v; Ok (g v)] with ([Ok v] ++ [Ok (g v)]).
    rewrite app_assoc. apply view_new_Ok. }
  assert (Hb : forall B (k : loc -> M B),
             (r0 <- ok v ;; r1 <- BaseResult.map r0 (pure_fn id g) ;; k r1) w
             = k (S (length (heap w)))
                 {| heap := heap w ++ [Ok v; Ok (g v)];
                    calls := calls w ++ [(id, v)] |}).
  { intros B k. unfold ok in *. rewrite bind_new in *.
    by erewrite bind_Normal by exact Hm. }
  split_all.
  - rewrite Hb. by erewrite unwrap_view by exact Hv.
  - rewrite Hb. by erewrite isOk_view by exact Hv.
  - eexists _, _. split; [exact Hm | exact Hv].
  - intros r x fn Hr.
    rewrite (map_view _ _ _ Hr). destruct x as [p|p]; simpl.
    + unfold bind, invoke, new.
      by destruct (fn_body fn p (heap w)) as [[u|exn|] h'].
    + by rewrite app_nil_r.
Qed.

Lemma map_ok_witness :
  (r0 <- ok (VNum 10) ;; r1 <- BaseResult.map r0 times2 ;;
   BaseResult.unwrap r1) empty_world
  = (Normal (VNum 20),
     {| heap := [Ok (VNum 10); Ok (VNum 20)]; calls := [(0, VNum 10)] |})
  /\ view (heap world_ok10) 0 = Some (Success (VNum 10))
  /\ calls (snd (BaseResult.map 0 times2 world_ok10)) = [(0, VNum 10)].
Proof.
  assert (Hr : view (heap world_ok10) 0 = Some (Success (VNum 10)))
    by reflexivity.
  split; [exact (proj1 (map_ok_spec empty_world (VNum 10) 0 times2_value))|].
  split; [exact Hr|].
  exact (proj2 (proj2 (proj2
    (map_ok_spec world_ok10 VNull 0 (fun u => u)))) 0 _ times2 Hr).
Defined.

(** C3, as stated, fails: [err('error').map(x => x * 2)] does not produce
    a new Result value. The location it returns is the receiver, which was
    allocated before [map] was called. *)
Lemma map_err_not_new_counterexample :
  fst (err (VStr "error") empty_world) = Normal 0
  /\ BaseResult.map 0 times2 world_err = (Normal 0, world_err)
  /\ ~ returns_new_Result (BaseResult.map 0 times2) world_err.
Proof.
  split; [reflexivity|]. split; [reflexivity|].
  intros (l & w' & Hm & Hfresh & _).
  change (BaseResult.map 0 times2 world_err) with (Normal 0, world_err) in Hm.
  inversion Hm; subst. apply Hfresh. unfold allocated. simpl. lia.
Qed.

(** C3, amended. In every world, [err(e).map(f)] returns the receiver
    itself: the same failure-tagged Result object with the same payload
    [e], without invoking [f] and without allocating or changing anything.
    On every failure-tagged Result [map] returns [this] in an unchanged
    world. [map] produces a new Result value only on a success-tagged
    receiver, and with a pure [f] the receiver then still denotes what it
    did. *)
Theorem map_err_returns_receiver (w : world) (e : value) (fn : callback) :
  (r0 <- err e ;; r1 <- BaseResult.map r0 fn ;; ret (r0, r1)) w
  = (Normal (length (heap w), length (heap w)), snd (err e w))
  /\ view (heap (snd (err e w))) (length (heap w)) = Some (Failure e)
  /\ forall (r : loc) (x : variant) (id : nat) (g : value -> value),
       view (heap w) r = Some x ->
       (is_success x = false -> BaseResult.map r fn w = (Normal r, w))
       /\ (is_success x = false ->
           ~ returns_new_Result (BaseResult.map r fn) w)
       /\ (is_success x = true ->
           returns_new_Result (BaseResult.map r (pure_fn id g)) w
           /\ view (heap (snd (BaseResult.map r (pure_fn id g) w))) r
              = Some x).
Proof.
  split_all.
  - unfold err. rewrite bind_new.
    by erewrite bind_Normal
      by (erewrite map_view by apply view_new_Err; reflexivity).
  - apply view_new_Err.
  - intros r x id g Hr. split_all.
    + intros Hx. rewrite (map_view _ _ _ Hr). by destruct x.
    + intros Hx (l & w' & Hm & Hfresh & _).
      rewrite (map_view _ _ _ Hr) in Hm. destruct x; [done|].
      inversion Hm; subst. apply Hfresh. unfold allocated.
      apply lookup_lt_is_Some.
      destruct (view_inv _ _ _ Hr) as (o & Ho & _). by exists o.
    + intros Hx. destruct x as [v|]; [|done].
      pose proof (map_pure_Success _ _ _ id g Hr) as Hm. split.
      * eexists _, _. split; [exact Hm|]. split.
        -- unfold allocated. lia.
        -- simpl. rewrite view_new_Ok. by eexists.
      * rewrite Hm. simpl. by apply view_app.
Qed.

Lemma map_err_returns_receiver_witness :
  (r0 <- err (VStr "error") ;; r1 <- BaseResult.map r0 times2 ;;
   ret (r0, r1)) empty_world
  = (Normal (0, 0), world_err)
  /\ view (heap world_err) 0 = Some (Failure (VStr "error"))
  /\ BaseResult.map 0 times2 world_err = (Normal 0, world_err).
Proof.
  assert (Hr : view (heap world_err) 0 = Some (Failure (VStr "error")))
    by reflexivity.
  split;
    [exact (proj1 (map_err_returns_receiver empty_world (VStr "error")
                     times2))|].
  split; [exact Hr|].
  apply (proj2 (proj2 (map_err_returns_receiver world_err VNull times2))
           0 _ 0 (fun u => u) Hr).
  reflexivity.
Defined.

(** C4. On every Result, [match] is one invocation of one handler: of
    [options.ok] on the payload when the Result is a success, of
    [options.err] on the payload when it is a failure. It ends as this
    invocation ends, with the handler's return value as its own, and the
    log of invocations grows by exactly this one entry. *)
Theorem match_spec (w : world) (r : loc) (x : variant)
    (options : match_options) (Hr : view (heap w) r = Some x) :
  let handler :=
    if is_success x then options_ok options else options_err options in
  BaseResult.match_ r options w = invoke handler (payload x) w
  /\ fst (BaseResult.match_ r options w)
     = fst (fn_body handler (payload x) (heap w))
  /\ calls (snd (BaseResult.match_ r options w))
     = calls w ++ [(fn_id handler, payload x)].
Proof.
  intros handler. rewrite (match_view _ _ _ Hr).
  assert (Hh : match x with
               | Success v => invoke (options_ok options) v w
               | Failure e => invoke (options_err options) e w
               end = invoke handler (payload x) w)
    by (subst handler; by destruct x).
  rewrite Hh. unfold invoke.
  by destruct (fn_body handler (payload x) (heap w)).
Qed.

Lemma match_witness :
  view (heap world_err) 0 = Some (Failure (VStr "error"))
  /\ BaseResult.match_ 0 test_options world_err
     = (Normal (VStr "Failure"),
        {| heap := heap world_err; calls := [(2, VStr "error")] |}).
Proof.
  assert (Hr : view (heap world_err) 0 = Some (Failure (VStr "error")))
    by reflexivity.
  split; [exact Hr|].
  exact (proj1 (match_spec world_err 0 _ test_options Hr)).
Defined.

(** C5, as stated, fails: the tuple of [ok(undefined)] has no component
    that is present. *)
Lemma unwrapTuple_ok_undefined_counterexample :
  (r0 <- ok VUndefined ;; BaseResult.unwrapTuple r0) empty_world
  = (Normal (VUndefined, VUndefined), snd (ok VUndefined empty_world))
  /\ ~ returns_exactly_one_defined
         (r0 <- ok VUndefined ;; BaseResult.unwrapTuple r0) empty_world.
Proof.
  split; [reflexivity|].
  intros (t & w' & Hm & Hone).
  change ((r0 <- ok VUndefined ;; BaseResult.unwrapTuple r0) empty_world)
    with (Normal (VUndefined, VUndefined), snd (ok VUndefined empty_world))
    in Hm.
  inversion Hm; subst. discriminate.
Qed.

(** C5, amended. In every world, [ok(v).unwrapTuple()] returns
    [(v, undefined)] and [err(e).unwrapTuple()] returns [(undefined, e)].
    On every Result the tuple has the payload in the component of the tag
    and [undefined] in the other one, so the two components are never both
    present, and exactly one is present if and only if the payload is not
    [undefined]. *)
Theorem unwrapTuple_spec (w : world) (v e : value) :
  (r0 <- ok v ;; BaseResult.unwrapTuple r0) w
  = (Normal (v, VUndefined), snd (ok v w))
  /\ (r0 <- err e ;; BaseResult.unwrapTuple r0) w
     = (Normal (VUndefined, e), snd (err e w))
  /\ forall (r : loc) (x : variant),
       view (heap w) r = Some x ->
       exists t,
         BaseResult.unwrapTuple r w = (Normal t, w)
         /\ t = (if is_success x then (payload x, VUndefined)
                 else (VUndefined, payload x))
         /\ defined (fst t) && defined (snd t) = false
         /\ exactly_one_defined t = defined (payload x).
Proof.
  split_all.
  - unfold ok. rewrite bind_new.
    by erewrite unwrapTuple_view by apply view_new_Ok.
  - unfold err. rewrite bind_new.
    by erewrite unwrapTuple_view by apply view_new_Err.
  - intros r x Hr.
    eexists. split; [apply (unwrapTuple_view _ _ _ Hr)|].
    unfold exactly_one_defined.
    destruct x as [p|p]; simpl; destruct (defined p); auto.
Qed.

Lemma unwrapTuple_witness :
  (r0 <- ok VUndefined ;; BaseResult.unwrapTuple r0) empty_world
  = (Normal (VUndefined, VUndefined), snd (ok VUndefined empty_world))
  /\ view (heap world_err) 0 = Some (Failure (VStr "error"))
  /\ exists t,
       BaseResult.unwrapTuple 0 world_err = (Normal t, world_err)
       /\ t = (VUndefined, VStr "error")
       /\ defined (fst t) && defined (snd t) = false
       /\ exactly_one_defined t = true.
Proof.
  assert (Hr : view (heap world_err) 0 = Some (Failure (VStr "error")))
    by reflexivity.
  split; [exact (proj1 (unwrapTuple_spec empty_world VUndefined VNull))|].
  split; [exact Hr|].
  exact (proj2 (proj2 (unwrapTuple_spec world_err VNull VNull)) 0 _ Hr).
Defined.

(** C6. [ok(v)] yields a Result on which [isOk()] is [true] and [isErr()]
    is [false]; [err(e)] yields a Result on which [isErr()] is [true] and
    [isOk()] is [false]. The interrogation leaves the world as the
    constructor left it. *)
Theorem ok_err_tags (w : world) (v e : value) :
  (r0 <- ok v ;; BaseResult.isOk r0) w = (Normal true, snd (ok v w))
  /\ (r0 <- ok v ;; BaseResult.isErr r0) w = (Normal false, snd (ok v w))
  /\ (r0 <- err e ;; BaseResult.isErr r0) w = (Normal true, snd (err e w))
  /\ (r0 <- err e ;; BaseResult.isOk r0) w = (Normal false, snd (err e w)).
Proof.
  unfold ok, err. rewrite !bind_new. split_all.
  - by erewrite isOk_view by apply view_new_Ok.
  - by erewrite isErr_view by apply view_new_Ok.
  - by erewrite isErr_view by apply view_new_Err.
  - by erewrite isOk_view by apply view_new_Err.
Qed.



(** C8. In every world, [ok(v).unwrapOr(fallback)] returns [v] and
    [err(e).unwrapOr(fallback)] returns [fallback]; on every Result
    [unwrapOr] returns a value, throws nothing and changes nothing. *)
Theorem unwrapOr_spec (w : world) (v e fallback : value) :
  (r0 <- ok v ;; BaseResult.unwrapOr r0 fallback) w
  = (Normal v, snd (ok v w))
  /\ (r0 <- err e ;; BaseResult.unwrapOr r0 fallback) w
     = (Normal fallback, snd (err e w))
  /\ forall (r : loc) (x : variant),
       view (heap w) r = Some x ->
       BaseResult.unwrapOr r fallback w
       = (Normal (if is_success x then payload x else fallback), w)
       /\ ~ raises (BaseResult.unwrapOr r fallback) w.
Proof.
  split_all.
  - unfold ok. rewrite bind_new.
    by erewrite unwrapOr_view by apply view_new_Ok.
  - unfold err. rewrite bind_new.
    by erewrite unwrapOr_view by apply view_new_Err.
  - intros r x Hr.
    pose proof (unwrapOr_view _ _ _ Hr fallback) as Hu. split.
    + rewrite Hu. by destruct x.
    + by apply (not_raises_Normal _ _ _ _ Hu).
Qed.

Lemma unwrapOr_witness :
  (r0 <- ok (VNum 1) ;; BaseResult.unwrapOr r0 (VNum 0)) empty_world
  = (Normal (VNum 1), snd (ok (VNum 1) empty_world))
  /\ view (heap world_err) 0 = Some (Failure (VStr "error"))
  /\ BaseResult.unwrapOr 0 (VNum 0) world_err = (Normal (VNum 0), world_err).
Proof.
  assert (Hr : view (heap world_err) 0 = Some (Failure (VStr "error")))
    by reflexivity.
  split; [exact (proj1 (unwrapOr_spec empty_world (VNum 1) VNull (VNum 0)))|].
  split; [exact Hr|].
  exact (proj1 (proj2 (proj2 (unwrapOr_spec world_err VNull VNull (VNum 0)))
                  0 _ Hr)).
Defined.

(** C9. For every message, [new ResultError(message)] is an object whose
    [name] is the string ['ResultError'] and whose [message] is the string
    it was constructed with; it is an instance of [ResultError] and of
    [Error], and it is what the extractors throw. *)
Theorem ResultError_spec (w : world) (message : string) :
  exists x w' o,
    new (ResultError message) w = (Normal x, w')
    /\ heap w' !! x = Some o
    /\ get_field o "name" = VStr "ResultError"
    /\ get_field o "message" = VStr message
    /\ instanceof o CResultError = true
    /\ instanceof o CError = true
    /\ instanceof o CBaseResult = false.
Proof.
  eexists _, _, _. split; [reflexivity|]. split; [apply lookup_new|].
  unfold get_field, ResultError; simpl. split_all; reflexivity.
Qed.

(** C10. With [undefined] as its payload a success is still a success:
    [ok(undefined).isOk()] is [true], and [ok(undefined).unwrapTuple()]
    returns [(undefined, undefined)], in which no component is present. *)
Theorem ok_undefined_spec (w : world) :
  (r0 <- ok VUndefined ;; BaseResult.isOk r0) w
  = (Normal true, snd (ok VUndefined w))
  /\ exists t,
       (r0 <- ok VUndefined ;; BaseResult.unwrapTuple r0) w
       = (Normal t, snd (ok VUndefined w))
       /\ t = (VUndefined, VUndefined)
       /\ defined (fst t) || defined (snd t) = false.
Proof.
  unfold ok. rewrite !bind_new. split.
  - by erewrite isOk_view by apply view_new_Ok.
  - eexists. split; [by erewrite unwrapTuple_view by apply view_new_Ok|].
    by split.
Qed.

(** ** Further properties of the methods *)

(** X1. When the function given to [map] throws on the payload of a
    success, [map] ends by throwing the same value: the function was invoked
    once, no [Ok] is allocated, and the heap is the one the function left. *)
Theorem map_propagates_throw (w : world) (r : loc) (v exn : value)
    (fn : callback) (h' : list object)
    (Hr : view (heap w) r = Some (Success v))
    (Hfn : fn_body fn v (heap w) = (Thrown exn, h')) :
  BaseResult.map r fn w
  = (Thrown exn, {| heap := h'; calls := calls w ++ [(fn_id fn, v)] |}).
Proof.
  rewrite (map_view _ _ _ Hr). unfold bind, invoke. by rewrite Hfn.
Qed.

Lemma map_propagates_throw_witness :
  BaseResult.map 0 throwing_fn world_ok10
  = (Thrown (VNum 10),
     {| heap := heap world_ok10; calls := [(3, VNum 10)] |}).
Proof.
  apply (map_propagates_throw world_ok10 0 (VNum 10) (VNum 10) throwing_fn
           (heap world_ok10)); reflexivity.
Defined.

(** X2. A chain of [map] calls on a failure returns the receiver itself,
    invokes none of the functions and leaves the world as it is, whatever
    the functions are and however many there are. *)
Theorem map_all_failure (w : world) (r : loc) (e : value)
    (fns : list callback) (Hr : view (heap w) r = Some (Failure e)) :
  map_all r fns w = (Normal r, w).
Proof.
  induction fns as [|fn fns IH]; simpl; [reflexivity|].
  by rewrite (bind_Normal _ _ w w r) by (by rewrite (map_view _ _ _ Hr)).
Qed.

Lemma map_all_failure_witness :
  map_all 0 [times2; throwing_fn; times2] world_err = (Normal 0, world_err).
Proof.
  apply (map_all_failure world_err 0 (VStr "error")). reflexivity.
Defined.

(** X3. A chain of [map] calls with functions without effects on a success
    returns a success that holds the payload after every function was
    applied in turn. Each function is invoked exactly once, in order, on
    what the one before it returned; one [Ok] is allocated for each, and
    the receiver still denotes what it did. *)
Theorem map_all_success (l : list (nat * (value -> value))) (w : world)
    (r : loc) (v : value) (Hr : view (heap w) r = Some (Success v)) :
  exists r',
    map_all r (pure_fns l) w
    = (Normal r', {| heap := heap w ++ allocations l v;
                     calls := calls w ++ invocations l v |})
    /\ view (heap w ++ allocations l v) r' = Some (Success (apply_all l v))
    /\ view (heap w ++ allocations l v) r = Some (Success v).
Proof.
  revert w r v Hr. induction l as [|[id g] l IH]; intros w r v Hr; simpl.
  - exists r. rewrite !app_nil_r. by destruct w.
  - erewrite bind_Normal by (by apply map_pure_Success).
    destruct (IH {| heap := heap w ++ [Ok (g v)];
                    calls := calls w ++ [(id, v)] |}
                 (length (heap w)) (g v)) as (r' & Hm & Hv' & _).
    { apply view_new_Ok. }
    simpl in Hm, Hv'. rewrite <- !app_assoc in Hm. rewrite <- app_assoc in Hv'.
    exists r'. split; [exact Hm|]. split; [exact Hv'|]. by apply view_app.
Qed.

Lemma map_all_success_witness :
  exists r',
    map_all 0 (pure_fns [(0, times2_value); (5, fun _ => VNull)])
      world_ok10
    = (Normal r',
       {| heap := [Ok (VNum 10); Ok (VNum 20); Ok VNull];
          calls := [(0, VNum 10); (5, VNum 20)] |})
    /\ view [Ok (VNum 10); Ok (VNum 20); Ok VNull] r' = Some (Success VNull)
    /\ view [Ok (VNum 10); Ok (VNum 20); Ok VNull] 0
       = Some (Success (VNum 10)).
Proof.
  apply (map_all_success [(0, times2_value); (5, fun _ => VNull)]
           world_ok10 0 (VNum 10)).
  reflexivity.
Defined.

(** X4. [map] never changes the tag: whenever it returns, whatever the
    function did to the heap, [isOk()] and [isErr()] answer on what it
    returned as they did on the receiver. *)
Theorem map_keeps_tag (w w1 : world) (r r1 : loc) (x : variant)
    (fn : callback) (Hr : view (heap w) r = Some x)
    (Hm : BaseResult.map r fn w = (Normal r1, w1)) :
  BaseResult.isOk r1 w1 = (Normal (is_success x), w1)
  /\ BaseResult.isErr r1 w1 = (Normal (negb (is_success x)), w1).
Proof.
  rewrite (map_view _ _ _ Hr) in Hm.
  assert (Hv : exists x1, view (heap w1) r1 = Some x1
                          /\ is_success x1 = is_success x).
  { destruct x as [p|p].
    - unfold bind, invoke, new in Hm.
      destruct (fn_body fn p (heap w)) as [[u|exn|] h']; try discriminate.
      inversion Hm; subst. exists (Success u). split; [apply view_new_Ok|done].
    - inversion Hm; subst. by exists (Failure p). }
  destruct Hv as (x1 & Hv & <-).
  by rewrite (isOk_view _ _ _ Hv), (isErr_view _ _ _ Hv).
Qed.

Lemma map_keeps_tag_witness :
  BaseResult.isOk 1 (snd (BaseResult.map 0 times2 world_ok10))
  = (Normal true, snd (BaseResult.map 0 times2 world_ok10)).
Proof.
  apply (map_keeps_tag world_ok10 _ 0 1 (Success (VNum 10)) times2);
    reflexivity.
Defined.

(** X5. [map] on a failure followed by an extractor: for any function,
    [r.map(fn).unwrapErr()] returns the payload of [r] in an unchanged
    world, [r.map(fn).isErr()] is [true], and [r.map(fn).unwrap()] throws a
    [ResultError] with the message of [unwrap]. *)
Theorem map_failure_then_extract (w : world) (r : loc) (e : value)
    (fn : callback) (Hr : view (heap w) r = Some (Failure e)) :
  (r1 <- BaseResult.map r fn ;; BaseResult.unwrapErr r1) w = (Normal e, w)
  /\ (r1 <- BaseResult.map r fn ;; BaseResult.isErr r1) w = (Normal true, w)
  /\ raises_ResultError (r1 <- BaseResult.map r fn ;; BaseResult.unwrap r1) w
       "Called unwrap on an Err value".
Proof.
  assert (Hm : BaseResult.map r fn w = (Normal r, w))
    by (by rewrite (map_view _ _ _ Hr)).
  unfold raises_ResultError. rewrite !(bind_Normal _ _ _ _ _ Hm).
  rewrite (unwrapErr_view _ _ _ Hr), (isErr_view _ _ _ Hr),
    (unwrap_view _ _ _ Hr).
  split_all; try reflexivity.
  eexists _, _. split; [reflexivity|]. apply lookup_new.
Qed.

Lemma map_failure_then_extract_witness :
  (r1 <- BaseResult.map 0 times2 ;; BaseResult.unwrapErr r1) world_err
  = (Normal (VStr "error"), world_err).
Proof.
  apply (map_failure_then_extract world_err 0 (VStr "error") times2).
  reflexivity.
Defined.

(** X6. Every misuse allocates an error object of its own and leaves the
    Result as it was. On a Result, the extractor of the other variant
    throws a reference that was not allocated before the call; in the world
    it leaves, the Result denotes what it did, the extractor of its own
    variant returns the payload, and calling the wrong extractor again
    throws a different reference. *)
Theorem misuse_error_is_fresh (w : world) (r : loc) (x : variant)
    (Hr : view (heap w) r = Some x) :
  let wrong :=
    if is_success x then BaseResult.unwrapErr r else BaseResult.unwrap r in
  let right :=
    if is_success x then BaseResult.unwrap r else BaseResult.unwrapErr r in
  exists x1 w1 x2 w2,
    wrong w = (Thrown (VRef x1), w1)
    /\ ~ allocated (heap w) x1
    /\ view (heap w1) r = Some x
    /\ view (heap w1) x1 = None
    /\ right w1 = (Normal (payload x), w1)
    /\ wrong w1 = (Thrown (VRef x2), w2)
    /\ x1 <> x2.
Proof.
  intros wrong right.
  set (msg := if is_success x then "Called unwrapErr on an Ok value"
              else "Called unwrap on an Err value").
  set (w1 := {| heap := heap w ++ [ResultError msg]; calls := calls w |}).
  assert (Hr1 : view (heap w1) r = Some x) by (by apply view_app).
  assert (Hwrong : forall w0, view (heap w0) r = Some x ->
            wrong w0 = (Thrown (VRef (length (heap w0))),
                        {| heap := heap w0 ++ [ResultError msg];
                           calls := calls w0 |})).
  { intros w0 H0. subst wrong msg. destruct x; simpl.
    - by rewrite (unwrapErr_view _ _ _ H0).
    - by rewrite (unwrap_view _ _ _ H0). }
  exists (length (heap w)), w1, (length (heap w1)), 
    {| heap := heap w1 ++ [ResultError msg]; calls := calls w1 |}.
  split_all.
  - by apply Hwrong.
  - unfold allocated. lia.
  - exact Hr1.
  - unfold view. subst w1. simpl. by rewrite lookup_new.
  - subst right. destruct x; simpl.
    + by rewrite (unwrap_view _ _ _ Hr1).
    + by rewrite (unwrapErr_view _ _ _ Hr1).
  - by apply Hwrong.
  - subst w1. simpl. rewrite length_new. lia.
Qed.

Lemma misuse_error_is_fresh_witness :
  exists x1 w1 x2 w2,
    BaseResult.unwrap 0 world_err = (Thrown (VRef x1), w1)
    /\ ~ allocated (heap world_err) x1
    /\ view (heap w1) 0 = Some (Failure (VStr "error"))
    /\ view (heap w1) x1 = None
    /\ BaseResult.unwrapErr 0 w1 = (Normal (VStr "error"), w1)
    /\ BaseResult.unwrap 0 w1 = (Thrown (VRef x2), w2)
    /\ x1 <> x2.
Proof.
  apply (misuse_error_is_fresh world_err 0 (Failure (VStr "error"))).
  reflexivity.
Defined.




(** X8. [match] subsumes the other consumers. With handlers without
    effects, on every Result: [unwrapOr(fallback)] returns what [match]
    returns with the identity and the constant [fallback] as handlers;
    [map(g)] followed by [match] returns what [match] returns when its [ok]
    handler is composed with [g]; and [map(g)] followed by
    [unwrapOr(fallback)] returns what [match] returns with [g] and the
    constant [fallback] as handlers. *)
Theorem match_subsumes (w : world) (r : loc) (x : variant)
    (fallback : value) (i j k : nat) (g p q : value -> value)
    (Hr : view (heap w) r = Some x) :
  fst (BaseResult.unwrapOr r fallback w)
  = fst (BaseResult.match_ r
           {| options_ok := pure_fn j (fun v => v);
              options_err := pure_fn k (fun _ => fallback) |} w)
  /\ fst ((r1 <- BaseResult.map r (pure_fn i g) ;;
           BaseResult.match_ r1
             {| options_ok := pure_fn j p; options_err := pure_fn k q |}) w)
     = fst (BaseResult.match_ r
              {| options_ok := pure_fn j (fun v => p (g v));
                 options_err := pure_fn k q |} w)
  /\ fst ((r1 <- BaseResult.map r (pure_fn i g) ;;
           BaseResult.unwrapOr r1 fallback) w)
     = fst (BaseResult.match_ r
              {| options_ok := pure_fn j g;
                 options_err := pure_fn k (fun _ => fallback) |} w).
Proof.
  rewrite (unwrapOr_view _ _ _ Hr), !(match_view _ _ _ Hr).
  destruct x as [v|e].
  - rewrite !(bind_Normal _ _ _ _ _ (map_pure_Success _ _ _ i g Hr)).
    erewrite match_view by apply view_new_Ok.
    by erewrite unwrapOr_view by apply view_new_Ok.
  - assert (Hm : BaseResult.map r (pure_fn i g) w = (Normal r, w))
      by (by rewrite (map_view _ _ _ Hr)).
    rewrite !(bind_Normal _ _ _ _ _ Hm).
    by rewrite (match_view _ _ _ Hr), (unwrapOr_view _ _ _ Hr).
Qed.

Lemma match_subsumes_witness :
  fst ((r1 <- BaseResult.map 0 times2 ;;
        BaseResult.unwrapOr r1 (VNum 0)) world_ok10)
  = fst (BaseResult.match_ 0
           {| options_ok := pure_fn 1 times2_value;
              options_err := pure_fn 2 (fun _ => VNum 0) |} world_ok10).
Proof.
  apply (match_subsumes world_ok10 0 (Success (VNum 10)) (VNum 0) 0 1 2
           times2_value (fun v => v) (fun v => v)).
  reflexivity.
Defined.

(** X9. The tuple agrees with the other extractors. On every Result
    [unwrapTuple] changes nothing; its first component is what
    [unwrapOr(undefined)] returns; on a success it is what [unwrap]
    returns, and on a failure the second component is what [unwrapErr]
    returns. *)
Theorem unwrapTuple_agrees (w : world) (r : loc) (x : variant)
    (Hr : view (heap w) r = Some x) :
  exists t,
    BaseResult.unwrapTuple r w = (Normal t, w)
    /\ BaseResult.unwrapOr r VUndefined w = (Normal (fst t), w)
    /\ (is_success x = true -> BaseResult.unwrap r w = (Normal (fst t), w))
    /\ (is_success x = false ->
        BaseResult.unwrapErr r w = (Normal (snd t), w)).
Proof.
  rewrite (unwrapTuple_view _ _ _ Hr), (unwrapOr_view _ _ _ Hr),
    (unwrap_view _ _ _ Hr), (unwrapErr_view _ _ _ Hr).
  eexists. split; [reflexivity|]. by destruct x.
Qed.

Lemma unwrapTuple_agrees_witness :
  exists t,
    BaseResult.unwrapTuple 0 world_ok10 = (Normal t, world_ok10)
    /\ BaseResult.unwrapOr 0 VUndefined world_ok10
       = (Normal (fst t), world_ok10)
    /\ (true = true -> BaseResult.unwrap 0 world_ok10
                       = (Normal (fst t), world_ok10))
    /\ (true = false -> BaseResult.unwrapErr 0 world_ok10
                        = (Normal (snd t), world_ok10)).
Proof.
  apply (unwrapTuple_agrees world_ok10 0 (Success (VNum 10))). reflexivity.
Defined.

(** X10. The idiom of the README that destructures the tuple and tests a
    component tells more than the tag. [if (error)] takes the branch of
    the error if and only if the Result is a failure whose payload is
    truthy, and [if (value)] takes the branch of the value if and only if
    the Result is a success whose payload is truthy: a failure that
    carries [0], the empty string, [null], [false] or [undefined] is
    handled as a success by the first, and such a success as a failure by
    the second. *)
Theorem tuple_idiom_spec (w : world) (r : loc) (x : variant)
    (Hr : view (heap w) r = Some x) :
  tuple_if_error r w
  = (Normal (negb (is_success x) && truthy (payload x)), w)
  /\ tuple_if_value r w
     = (Normal (is_success x && truthy (payload x)), w)
  /\ (truthy (payload x) = false ->
      tuple_if_error r w = (Normal false, w)
      /\ tuple_if_value r w = (Normal false, w)).
Proof.
  unfold tuple_if_error, tuple_if_value.
  rewrite !(bind_Normal _ _ _ _ _ (unwrapTuple_view _ _ _ Hr)).
  destruct x as [p|p]; simpl; unfold ret; split_all; try reflexivity;
    intros ->; by split.
Qed.

Lemma tuple_idiom_witness :
  tuple_if_error 0 (snd (err (VStr "") empty_world))
  = (Normal false, snd (err (VStr "") empty_world))
  /\ tuple_if_value 0 (snd (err (VStr "") empty_world))
     = (Normal false, snd (err (VStr "") empty_world)).
Proof.
  apply (tuple_idiom_spec (snd (err (VStr "") empty_world)) 0
           (Failure (VStr ""))); reflexivity.
Defined.

(** X11. [map] wraps whatever the function returns, also when the function
    has effects: if on the payload of a success the function returns [u]
    and leaves the heap [h'], then [map] returns a new location, allocated
    after the function ran, that denotes the success of [u]; the function
    was invoked once, on the payload. *)
Theorem map_wraps_return (w : world) (r : loc) (v u : value)
    (fn : callback) (h' : list object)
    (Hr : view (heap w) r = Some (Success v))
    (Hfn : fn_body fn v (heap w) = (Normal u, h')) :
  BaseResult.map r fn w
  = (Normal (length h'),
     {| heap := h' ++ [Ok u]; calls := calls w ++ [(fn_id fn, v)] |})
  /\ view (h' ++ [Ok u]) (length h') = Some (Success u)
  /\ ~ allocated h' (length h').
Proof.
  split_all.
  - rewrite (map_view _ _ _ Hr). unfold bind, invoke, new. by rewrite Hfn.
  - apply view_new_Ok.
  - unfold allocated. lia.
Qed.

Lemma map_wraps_return_witness :
  BaseResult.map 0 allocating_fn world_ok10
  = (Normal 2,
     {| heap := [Ok (VNum 10); Err (VNum 10); Ok (VRef 1)];
        calls := [(4, VNum 10)] |})
  /\ view [Ok (VNum 10); Err (VNum 10); Ok (VRef 1)] 2
     = Some (Success (VRef 1)).
Proof.
  pose proof (map_wraps_return world_ok10 0 (VNum 10) (VRef 1) allocating_fn
                [Ok (VNum 10); Err (VNum 10)] eq_refl eq_refl)
    as (Hm & Hv & _).
  split; [exact Hm | exact Hv].
Defined.
